(** * fuse: identity of variables and constraints

    A shallow embedding of [fuse_core::Constraint] (constraint.h) and of
    [fuse_variables::AccelerationAngular2DStamped]
    (acceleration_angular_2d_stamped.h).

    C++ objects live in a store indexed by addresses, so that two instances
    built from the same inputs are still two objects, and so that a reference
    such as the one returned by [yaw()] designates a cell of one object.
    The random UUID generator is threaded as explicit state. *)

From stdpp Require Import gmap strings list vector fin_maps.
From Stdlib Require Import SpecFloat.

Abbreviation loc := positive.

(** ** The object store *)

Section store.
Context {T : Type}.

(** [new T(x)] / [make_unique<T>(x)]: the object is placed at an address that
    holds no live object. *)
Definition alloc (h : gmap loc T) (x : T) : loc * gmap loc T :=
  let p := fresh (dom h) in (p, <[p := x]> h).

End store.

(** ** fuse_core *)

Module fuse_core.

Section Constraint.
(** [fuse_core::UUID] (uuid.h) is used as an opaque value. *)
Context {UUID : Type}.
(** [fuse_core::uuid::generate()] (uuid.h): one draw from the process-wide
    random generator, whose state is [RngState]. *)
Context {RngState : Type} (generate : RngState → UUID * RngState).
(** [boost::core::demangle]. *)
Context (demangle : string → string).
(** The object behind a [ceres::LossFunction] pointer. *)
Context {LossFunction : Type}.

(** The data members of [class Constraint]. *)
Record Constraint := {
  uuid_ : UUID;
  variables_ : list UUID
}.

(** A concrete kind is a class derived from [Constraint]: the name that
    [typeid] reports for it, and what it does with the virtual member
    functions that the base class implements, [type()] and [lossFunction()]:
    it inherits them, or overrides them with a [const] member function of its
    own, which may read the object.  The pure virtual [print()] and
    [costFunction()] have no body in constraint.h and are left out. *)
Record Kind := {
  typeid_name : string;
  type_override : option (Constraint → string);
  lossFunction_override : option (Constraint → option LossFunction)
}.

(** An instance of a concrete kind: its dynamic type and its base subobject. *)
Record Object := {
  kind : Kind;
  base : Constraint
}.

(** The elements that the iterator range from position [first] to position
    [last] of [buf] designates. *)
Definition range_elements (buf : list UUID) (first last : nat) : list UUID :=
  take (last - first) (drop first buf).

(** [variables_.push_back(x)] *)
Definition push_back (v : list UUID) (x : UUID) : list UUID := v ++ [x].

(** The loop of the iterator-range constructor,
    [while (first != last) variables_.push_back( *first++ );].
    The iterators are positions in the sequence [buf] they traverse;
    dereferencing a position past the end has no defined result. *)
Fixpoint push_range (fuel : nat) (buf : list UUID) (first last : nat)
    (variables_ : list UUID) : option (list UUID) :=
  match fuel with
  | O => None
  | S fuel' =>
      if decide (first = last) then Some variables_
      else match buf !! first with
           | Some x => push_range fuel' buf (S first) last (push_back variables_ x)
           | None => None
           end
  end.

(** [Constraint::Constraint(VariableUuidIterator first, VariableUuidIterator last)]:
    [uuid_] is initialised from [uuid::generate()], then the body fills
    [variables_], which starts empty.  The loop dereferences at most every
    position of [buf] once, so [S (length buf)] rounds are always enough. *)
Definition Constraint_range (s : RngState) (buf : list UUID) (first last : nat)
    : option (Constraint * RngState) :=
  let '(u, s') := generate s in
  match push_range (S (length buf)) buf first last [] with
  | Some vs => Some ({| uuid_ := u; variables_ := vs |}, s')
  | None => None
  end.

(** Modelled from the spec: the body of
    [Constraint::Constraint(std::initializer_list<UUID>)], which constraint.h
    only declares.  The identifier is random and generated at construction;
    the endpoints are the given list, in order; construction fails if the list
    is empty. *)
Definition Constraint_list (s : RngState) (l : list UUID)
    : option (Constraint * RngState) :=
  match l with
  | [] => None
  | _ :: _ => let '(u, s') := generate s in
              Some ({| uuid_ := u; variables_ := l |}, s')
  end.

(** [Constraint::type()]: the demangled [typeid] name of the dynamic type of
    the object. *)
Definition Constraint_type (dynamic : Kind) : string :=
  demangle (typeid_name dynamic).

(** [Constraint::lossFunction()]: [return nullptr;] *)
Definition Constraint_lossFunction (this : Constraint) : option LossFunction :=
  None.

(** Calls through the interface: [type()] and [lossFunction()] are virtual,
    [uuid()] and [variables()] are not. *)
Definition type (o : Object) : string :=
  match type_override (kind o) with
  | Some f => f (base o)
  | None => Constraint_type (kind o)
  end.

Definition lossFunction (o : Object) : option LossFunction :=
  match lossFunction_override (kind o) with
  | Some f => f (base o)
  | None => Constraint_lossFunction (base o)
  end.

Definition uuid (o : Object) : UUID := uuid_ (base o).

Definition variables (o : Object) : list UUID := variables_ (base o).

(** The program state: the random generator and the live constraints. *)
Record World := {
  rng : RngState;
  objs : gmap loc Object
}.

(** Modelled from the spec: [clone()] is pure virtual in constraint.h; its
    documented implementation in every derived class is
    [return Derived::make_unique( *this );], a copy of the object (same kind,
    same identifier, same endpoints) placed at a new address. *)
Definition clone (h : gmap loc Object) (this : loc) : option (loc * gmap loc Object) :=
  o ← h !! this; Some (alloc h o).

(** What a client can do with constraints. *)
Inductive Call :=
  | New_range (k : Kind) (buf : list UUID) (first last : nat)
  | New_list (k : Kind) (l : list UUID)
  | Call_type (this : loc)
  | Call_uuid (this : loc)
  | Call_lossFunction (this : loc)
  | Call_variables (this : loc)
  | Call_clone (this : loc).

Inductive Value :=
  | VPtr (p : loc)
  | VString (s : string)
  | VUuid (u : UUID)
  | VLoss (f : option LossFunction)
  | VUuids (l : list UUID).

Definition construct (w : World) (k : Kind) (r : option (Constraint * RngState))
    : option (Value * World) :=
  '(b, s') ← r;
  let '(p, h') := alloc (objs w) {| kind := k; base := b |} in
  Some (VPtr p, {| rng := s'; objs := h' |}).

(** One call.  [None]: the call does not complete (a rejected construction,
    a call on an address that holds no constraint, an invalid range). *)
Definition exec (w : World) (c : Call) : option (Value * World) :=
  match c with
  | New_range k buf first last =>
      construct w k (Constraint_range (rng w) buf first last)
  | New_list k l =>
      construct w k (Constraint_list (rng w) l)
  | Call_type this => o ← objs w !! this; Some (VString (type o), w)
  | Call_uuid this => o ← objs w !! this; Some (VUuid (uuid o), w)
  | Call_lossFunction this => o ← objs w !! this; Some (VLoss (lossFunction o), w)
  | Call_variables this => o ← objs w !! this; Some (VUuids (variables o), w)
  | Call_clone this =>
      '(p, h') ← clone (objs w) this;
      Some (VPtr p, {| rng := rng w; objs := h' |})
  end.

(** The calls that construct a constraint through a constructor. *)
Definition is_new (c : Call) : bool :=
  match c with
  | New_range _ _ _ _ | New_list _ _ => true
  | _ => false
  end.

(** A sequence of calls, with the values they return. *)
Fixpoint run (w : World) (cs : list Call) : option (list Value * World) :=
  match cs with
  | [] => Some ([], w)
  | c :: cs' =>
      '(v, w') ← exec w c;
      '(vs, w'') ← run w' cs';
      Some (v :: vs, w'')
  end.

End Constraint.

End fuse_core.

(** ** fuse_variables *)

Module fuse_variables.

(** A C++ [double], as the IEEE 754 value it holds. *)
Abbreviation double := spec_float.

Section AccelerationAngular2DStamped.
(** [fuse_core::UUID] (uuid.h) and [ros::Time] are used as opaque values. *)
Context {UUID Time : Type}.
(** [fuse_core::uuid::generate(namespace_string, stamp, id)] (uuid.h): the
    deterministic generator, a function of its arguments. *)
Context (generate : string → Time → UUID → UUID).
(** [fuse_core::uuid::NIL] (uuid.h). *)
Context (NIL : UUID).

(** [enum : size_t { YAW = 0 }], an index into an array of one element. *)
Definition YAW : fin 1 := 0%fin.

(** The data members of the class: [data_] comes from [FixedSizeVariable<1>]
    (a [std::array<double, 1>]), [stamp_] and [device_id_] from [Stamped],
    [uuid_] is its own. *)
Record AccelerationAngular2DStamped := {
  data_ : vec double 1;
  stamp_ : Time;
  device_id_ : UUID;
  uuid_ : UUID
}.

Definition set_data_ (o : AccelerationAngular2DStamped) (d : vec double 1)
    : AccelerationAngular2DStamped :=
  {| data_ := d; stamp_ := stamp_ o; device_id_ := device_id_ o; uuid_ := uuid_ o |}.

(** A [double&]: a cell of the [data_] array of the object at an address. *)
Record ref := {
  ref_object : loc;
  ref_index : fin 1
}.

(** [double& yaw() { return data_[YAW]; }] and its [const] overload. *)
Definition yaw (this : loc) : ref := {| ref_object := this; ref_index := YAW |}.

(** Reading through a reference. *)
Definition load (h : gmap loc AccelerationAngular2DStamped) (r : ref) : option double :=
  o ← h !! ref_object r; Some (data_ o !!! ref_index r).

(** Assigning through a reference: the cell gets the value, the rest of the
    object stays. *)
Definition store (h : gmap loc AccelerationAngular2DStamped) (r : ref) (x : double)
    : option (gmap loc AccelerationAngular2DStamped) :=
  o ← h !! ref_object r;
  Some (<[ref_object r := set_data_ o (vinsert (ref_index r) x (data_ o))]> h).

(** [fuse_core::UUID uuid() const override { return uuid_; }] *)
Definition uuid (h : gmap loc AccelerationAngular2DStamped) (this : loc) : option UUID :=
  o ← h !! this; Some (uuid_ o).

(** Modelled from the spec: the type discriminator of the kind, the name of
    the class. *)
Definition type_discriminator : string :=
  "fuse_variables::AccelerationAngular2DStamped".

(** Modelled from the spec: the body of the constructor
    [AccelerationAngular2DStamped(stamp, device_id)], which the header only
    declares.  The identifier is the deterministic one of (kind, timestamp,
    device), computed at construction; the single scalar starts at zero. *)
Definition new (h : gmap loc AccelerationAngular2DStamped) (stamp : Time) (device_id : UUID)
    : loc * gmap loc AccelerationAngular2DStamped :=
  alloc h {| data_ := [# S754_zero false];
             stamp_ := stamp;
             device_id_ := device_id;
             uuid_ := generate type_discriminator stamp device_id |}.

(** The default argument [device_id = fuse_core::uuid::NIL]. *)
Definition new_default (h : gmap loc AccelerationAngular2DStamped) (stamp : Time)
    : loc * gmap loc AccelerationAngular2DStamped :=
  new h stamp NIL.

(** Modelled from the spec: the body of [clone()], which the header only
    declares: a deep copy of the scalar buffer and of the identity, in a new
    object. *)
Definition clone (h : gmap loc AccelerationAngular2DStamped) (this : loc)
    : option (loc * gmap loc AccelerationAngular2DStamped) :=
  o ← h !! this; Some (alloc h o).

(** What a client can do with these variables. *)
Inductive Call :=
  | New (stamp : Time) (device_id : UUID)
  | Call_clone (this : loc)
  | Call_uuid (this : loc)
  | Read_yaw (this : loc)
  | Write_yaw (this : loc) (x : double).

Inductive Value :=
  | VPtr (p : loc)
  | VUuid (u : UUID)
  | VDouble (x : double)
  | VVoid.

(** One call.  [None]: the call has no defined result (no object at the
    address). *)
Definition exec (h : gmap loc AccelerationAngular2DStamped) (c : Call)
    : option (Value * gmap loc AccelerationAngular2DStamped) :=
  match c with
  | New stamp device_id =>
      let '(p, h') := new h stamp device_id in Some (VPtr p, h')
  | Call_clone this => '(p, h') ← clone h this; Some (VPtr p, h')
  | Call_uuid this => u ← uuid h this; Some (VUuid u, h)
  | Read_yaw this => x ← load h (yaw this); Some (VDouble x, h)
  | Write_yaw this x => h' ← store h (yaw this) x; Some (VVoid, h')
  end.

Fixpoint run (h : gmap loc AccelerationAngular2DStamped) (cs : list Call)
    : option (list Value * gmap loc AccelerationAngular2DStamped) :=
  match cs with
  | [] => Some ([], h)
  | c :: cs' =>
      '(v, h') ← exec h c;
      '(vs, h'') ← run h' cs';
      Some (v :: vs, h'')
  end.

End AccelerationAngular2DStamped.

End fuse_variables.

(** ** Instances used to evaluate the definitions *)

(** A generator that hands out consecutive identifiers. *)
Definition counter_generate (s : N) : N * N := (s, N.succ s).

(** A deterministic generator, over timestamps of seconds and nanoseconds:
    the identifier mixes the three inputs. *)
Definition mixing_generate (ns : string) (stamp : N * N) (id : N) : N :=
  (N.of_nat (String.length ns) * 1000003 + stamp.1 * 1009 + stamp.2 * 31 + id)%N.

(** A runtime whose [typeid] names are readable as they are. *)
Definition plain_demangle (name : string) : string := name.

(** A kind that overrides nothing. *)
Definition plain_kind (name : string) : @fuse_core.Kind N unit :=
  {| fuse_core.typeid_name := name;
     fuse_core.type_override := None;
     fuse_core.lossFunction_override := None |}.

(** A kind that overrides [lossFunction()] to return a loss object. *)
Definition robust_kind (class : string) : @fuse_core.Kind N unit :=
  {| fuse_core.typeid_name := class;
     fuse_core.type_override := None;
     fuse_core.lossFunction_override := Some (λ _, Some ()) |}.

(** The state of a program that has built nothing yet. *)
Definition world0 : @fuse_core.World N N unit :=
  {| fuse_core.rng := 0%N; fuse_core.objs := ∅ |}.

(** A constraint of a kind that overrides nothing, and the state of a
    program that has built only it. *)
Definition example_constraint : @fuse_core.Object N unit :=
  {| fuse_core.kind := plain_kind "ExampleConstraint";
     fuse_core.base := {| fuse_core.uuid_ := 0%N; fuse_core.variables_ := [7%N; 7%N; 3%N] |} |}.

Definition world1 : @fuse_core.World N N unit :=
  {| fuse_core.rng := 1%N; fuse_core.objs := {[ 1%positive := example_constraint ]} |}.

(** A second constraint, of a kind that overrides [lossFunction()] only, and
    the state of a program that has built both. *)
Definition robust_constraint : @fuse_core.Object N unit :=
  {| fuse_core.kind := robust_kind "RobustConstraint";
     fuse_core.base := {| fuse_core.uuid_ := 1%N; fuse_core.variables_ := [7%N; 3%N] |} |}.

Definition world2 : @fuse_core.World N N unit :=
  {| fuse_core.rng := 2%N;
     fuse_core.objs := <[ 2%positive := robust_constraint ]>
                         {[ 1%positive := example_constraint ]} |}.

(** The double nearest to 3.14. *)
Definition double_3_14 : fuse_variables.double :=
  S754_finite false 7070651414971679 (-51).

(** The variable constructed at 10.0 s on the device with the zero
    identifier, and the stores of a program that has built it once and
    twice. *)
Definition variable_at_10s : @fuse_variables.AccelerationAngular2DStamped N (N * N) :=
  {| fuse_variables.data_ := [# S754_zero false];
     fuse_variables.stamp_ := (10%N, 0%N);
     fuse_variables.device_id_ := 0%N;
     fuse_variables.uuid_ :=
       mixing_generate fuse_variables.type_discriminator (10%N, 0%N) 0%N |}.

Definition heap1 : gmap loc (@fuse_variables.AccelerationAngular2DStamped N (N * N)) :=
  {[ 1%positive := variable_at_10s ]}.

Definition heap2 : gmap loc (@fuse_variables.AccelerationAngular2DStamped N (N * N)) :=
  <[ 2%positive := variable_at_10s ]> heap1.

(** The first [n] draws of a generator started in the state [s]. *)
Fixpoint draws {UUID RngState : Type} (generate : RngState → UUID * RngState)
    (n : nat) (s : RngState) : list UUID :=
  match n with
  | O => []
  | S n' => (generate s).1 :: draws generate n' (generate s).2
  end.

(** * Properties *)

(** ** The store *)

Section store_lemmas.
Context {T : Type}.
Implicit Types (h : gmap loc T) (x o : T) (p : loc).

Lemma alloc_fresh h x : h !! (alloc h x).1 = None.
Proof. apply not_elem_of_dom, is_fresh. Qed.

Lemma alloc_spec h x : ∃ p, alloc h x = (p, <[p := x]> h) ∧ h !! p = None.
Proof. eexists. split; [reflexivity|]. apply (alloc_fresh h x). Qed.

Lemma alloc_new h x : (alloc h x).2 !! (alloc h x).1 = Some x.
Proof. apply lookup_insert_eq. Qed.

Lemma alloc_ne h x p o : h !! p = Some o → (alloc h x).1 ≠ p.
Proof. intros Hp Heq. rewrite <- Heq, alloc_fresh in Hp. discriminate. Qed.

Lemma alloc_old h x p o : h !! p = Some o → (alloc h x).2 !! p = Some o.
Proof.
  intros Hp. pose proof (alloc_ne h x p o Hp) as Hne.
  unfold alloc in *; simpl in *. by rewrite lookup_insert_ne.
Qed.

End store_lemmas.

(** ** The iterator-range loop *)

Section range_lemmas.
Context {UUID : Type}.
Implicit Types (buf acc vs : list UUID) (first last fuel : nat).
Local Abbreviation range_elements := fuse_core.range_elements.

Lemma range_elements_empty buf first : range_elements buf first first = [].
Proof. unfold fuse_core.range_elements. by rewrite Nat.sub_diag. Qed.

Lemma range_elements_cons buf first last x :
  first < last → buf !! first = Some x →
  range_elements buf first last = x :: range_elements buf (S first) last.
Proof.
  intros Hlt Hx. unfold fuse_core.range_elements.
  rewrite (drop_S _ _ _ Hx).
  replace (last - first) with (S (last - S first)) by lia. done.
Qed.

Lemma range_elements_length buf first last :
  last ≤ length buf → length (range_elements buf first last) = last - first.
Proof. intros Hle. unfold fuse_core.range_elements. rewrite length_take, length_drop. lia. Qed.

Lemma range_elements_lookup buf first last i :
  i < last - first → range_elements buf first last !! i = buf !! (first + i).
Proof. intros Hi. unfold fuse_core.range_elements. by rewrite lookup_take_lt, lookup_drop. Qed.

(** On a valid range the loop ends before the fuel does, having appended the
    elements of the range, in order, to what [variables_] held. *)
Lemma push_range_valid fuel buf first last acc :
  first ≤ last → last ≤ length buf → last - first < fuel →
  fuse_core.push_range fuel buf first last acc
  = Some (acc ++ range_elements buf first last).
Proof.
  revert first acc. induction fuel as [|fuel IH]; intros first acc Hfl Hlen Hfuel.
  - lia.
  - simpl. destruct (decide (first = last)) as [->|Hne].
    + by rewrite range_elements_empty, app_nil_r.
    + destruct (lookup_lt_is_Some_2 buf first) as [x Hx]; [lia|].
      rewrite Hx, IH by lia.
      rewrite (range_elements_cons buf first last x) by (done || lia).
      unfold fuse_core.push_back. by rewrite <- app_assoc.
Qed.

(** Whenever the loop ends, that is what it has done. *)
Lemma push_range_Some fuel buf first last acc vs :
  fuse_core.push_range fuel buf first last acc = Some vs →
  first ≤ last ∧ vs = acc ++ range_elements buf first last.
Proof.
  revert first acc. induction fuel as [|fuel IH]; intros first acc; simpl; [done|].
  destruct (decide (first = last)) as [->|Hne].
  - intros [= <-]. by rewrite range_elements_empty, app_nil_r.
  - destruct (buf !! first) as [x|] eqn:Hx; [|done].
    intros [Hle ->]%IH. split; [lia|].
    rewrite (range_elements_cons buf first last x) by (done || lia).
    unfold fuse_core.push_back. by rewrite <- app_assoc.
Qed.

End range_lemmas.

(** ** Constraints *)

Section Constraint_properties.
Context {UUID RngState LossFunction : Type}.
Context (generate : RngState → UUID * RngState) (demangle : string → string).

Local Abbreviation Kind := (@fuse_core.Kind UUID LossFunction).
Local Abbreviation Object := (@fuse_core.Object UUID LossFunction).
Local Abbreviation World := (@fuse_core.World UUID RngState LossFunction).
Local Abbreviation Call := (@fuse_core.Call UUID LossFunction).
Local Abbreviation Value := (@fuse_core.Value UUID LossFunction).
Local Abbreviation exec := (fuse_core.exec generate demangle).
Local Abbreviation run := (fuse_core.run generate demangle).
Local Abbreviation range_elements := fuse_core.range_elements.

Implicit Types (w : World) (k : Kind) (o : Object) (c : Call) (v : Value)
  (cs : list Call) (vs : list Value) (p : loc)
  (buf l : list UUID) (first last : nat) (s : RngState).

(** *** The constructors *)

Lemma Constraint_range_valid s buf first last :
  first ≤ last → last ≤ length buf →
  fuse_core.Constraint_range generate s buf first last
  = Some ({| fuse_core.uuid_ := (generate s).1;
             fuse_core.variables_ := range_elements buf first last |},
          (generate s).2).
Proof.
  intros Hfl Hlen. unfold fuse_core.Constraint_range.
  destruct (generate s) as [u s']. by rewrite push_range_valid by lia.
Qed.

Lemma Constraint_range_Some s buf first last b s' :
  fuse_core.Constraint_range generate s buf first last = Some (b, s') →
  fuse_core.uuid_ b = (generate s).1 ∧ s' = (generate s).2 ∧
  fuse_core.variables_ b = range_elements buf first last.
Proof.
  unfold fuse_core.Constraint_range. destruct (generate s) as [u s0].
  destruct (fuse_core.push_range _ _ _ _ _) as [vs0|] eqn:Hloop; [|done].
  intros [= <- <-]. by apply push_range_Some in Hloop as [_ ->].
Qed.

Lemma Constraint_list_Some s l b s' :
  fuse_core.Constraint_list generate s l = Some (b, s') →
  l ≠ [] ∧ fuse_core.uuid_ b = (generate s).1 ∧ s' = (generate s).2 ∧
  fuse_core.variables_ b = l.
Proof.
  unfold fuse_core.Constraint_list. destruct l as [|x l]; [done|].
  destruct (generate s) as [u s0]. by intros [= <- <-].
Qed.

Lemma construct_Some w k r v w' :
  fuse_core.construct w k r = Some (v, w') →
  ∃ b s', r = Some (b, s') ∧
    let a := alloc (fuse_core.objs w) {| fuse_core.kind := k; fuse_core.base := b |} in
    v = fuse_core.VPtr a.1 ∧ w' = {| fuse_core.rng := s'; fuse_core.objs := a.2 |}.
Proof.
  unfold fuse_core.construct. destruct r as [[b s']|]; simpl; [|done].
  intros [= <- <-]. by exists b, s'.
Qed.

(** Constructing an object of kind [k] over the base [b] yields a new object
    with these contents. *)
Lemma construct_new w k b s' :
  ∃ p, fuse_core.construct w k (Some (b, s'))
       = Some (fuse_core.VPtr p,
               {| fuse_core.rng := s';
                  fuse_core.objs := <[p := {| fuse_core.kind := k; fuse_core.base := b |}]>
                                      (fuse_core.objs w) |})
       ∧ fuse_core.objs w !! p = None.
Proof.
  eexists. split; [reflexivity|].
  apply (alloc_fresh (fuse_core.objs w) {| fuse_core.kind := k; fuse_core.base := b |}).
Qed.

(** *** No call changes an existing constraint *)

Lemma exec_frame w c v w' p o :
  fuse_core.objs w !! p = Some o → exec w c = Some (v, w') →
  fuse_core.objs w' !! p = Some o.
Proof.
  intros Hp. destruct c; simpl.
  1,2: intros (b & s' & _ & _ & ->)%construct_Some; simpl; by eapply alloc_old.
  1-4: destruct (fuse_core.objs w !! this); simpl; [|done]; by intros [= _ <-].
  unfold fuse_core.clone. destruct (fuse_core.objs w !! this) as [o'|]; simpl; [|done].
  intros [= _ <-]. simpl. by eapply alloc_old.
Qed.

Lemma run_frame cs : ∀ w vs w' p o,
  fuse_core.objs w !! p = Some o → run w cs = Some (vs, w') →
  fuse_core.objs w' !! p = Some o.
Proof.
  induction cs as [|c cs IH]; intros w vs w' p o Hp; simpl.
  - by intros [= _ <-].
  - destruct (exec w c) as [[v w1]|] eqn:Hc; simpl; [|done].
    destruct (run w1 cs) as [[vs1 w2]|] eqn:Hcs; simpl; [|done].
    intros [= _ <-]. eapply IH; [|done]. by eapply exec_frame.
Qed.

(** Only the constructors draw from the random generator, once each. *)
Lemma exec_rng w c v w' :
  exec w c = Some (v, w') →
  fuse_core.rng w' = if fuse_core.is_new c then (generate (fuse_core.rng w)).2
                     else fuse_core.rng w.
Proof.
  destruct c; simpl.
  - intros (b & s' & Hb & _ & ->)%construct_Some. simpl.
    by apply Constraint_range_Some in Hb as (_ & -> & _).
  - intros (b & s' & Hb & _ & ->)%construct_Some. simpl.
    by apply Constraint_list_Some in Hb as (_ & _ & -> & _).
  - destruct (fuse_core.objs w !! this); simpl; [|done]; by intros [= _ <-].
  - destruct (fuse_core.objs w !! this); simpl; [|done]; by intros [= _ <-].
  - destruct (fuse_core.objs w !! this); simpl; [|done]; by intros [= _ <-].
  - destruct (fuse_core.objs w !! this); simpl; [|done]; by intros [= _ <-].
  - destruct (fuse_core.clone _ _) as [[q h']|]; simpl; [|done]. by intros [= _ <-].
Qed.

(** What a construction from a valid range returns. *)
Lemma exec_New_range w k buf first last :
  first ≤ last → last ≤ length buf →
  ∃ p w', exec w (fuse_core.New_range k buf first last) = Some (fuse_core.VPtr p, w')
    ∧ fuse_core.objs w !! p = None
    ∧ fuse_core.rng w' = (generate (fuse_core.rng w)).2
    ∧ fuse_core.objs w' !! p
      = Some {| fuse_core.kind := k;
                fuse_core.base := {| fuse_core.uuid_ := (generate (fuse_core.rng w)).1;
                                     fuse_core.variables_ := range_elements buf first last |} |}.
Proof.
  intros Hfl Hlen. simpl. rewrite Constraint_range_valid by done.
  edestruct construct_new as (p & -> & Hfresh).
  eexists _, _. split; [done|]. split; [done|]. split; [done|].
  simpl. apply lookup_insert_eq.
Qed.

(** *** Construction from a range *)

(** C1 (as amended): the iterator-range constructor has no emptiness check.
    On every valid range it produces an instance of the kind, whose
    [variables()] is empty exactly when the range is empty. *)
Theorem range_constructor_accepts_every_range w k buf first last :
  first ≤ last → last ≤ length buf →
  ∃ p w' o,
    exec w (fuse_core.New_range k buf first last) = Some (fuse_core.VPtr p, w')
    ∧ fuse_core.objs w' !! p = Some o
    ∧ fuse_core.kind o = k
    ∧ (fuse_core.variables o = [] ↔ first = last).
Proof.
  intros Hfl Hlen.
  destruct (exec_New_range w k buf first last Hfl Hlen) as (p & w' & He & _ & _ & Ho).
  eexists p, w', _. split; [done|]. split; [done|]. split; [done|].
  unfold fuse_core.variables; simpl. split.
  - intros Hnil. apply (f_equal length) in Hnil.
    rewrite range_elements_length in Hnil by done. simpl in Hnil. lia.
  - intros ->. apply range_elements_empty.
Qed.

(** C10: the iterator-range constructor copies the range as it is: one entry
    per element of the range, entry [i] being element [i] of the range,
    whatever the identifiers are and however often one occurs. *)
Theorem range_constructor_copies_verbatim w k buf first last :
  first ≤ last → last ≤ length buf →
  ∃ p w' o,
    exec w (fuse_core.New_range k buf first last) = Some (fuse_core.VPtr p, w')
    ∧ fuse_core.objs w' !! p = Some o
    ∧ fuse_core.variables o = range_elements buf first last
    ∧ length (fuse_core.variables o) = last - first
    ∧ ∀ i, i < last - first → fuse_core.variables o !! i = buf !! (first + i).
Proof.
  intros Hfl Hlen.
  destruct (exec_New_range w k buf first last Hfl Hlen) as (p & w' & He & _ & _ & Ho).
  eexists p, w', _. split; [done|]. split; [done|].
  unfold fuse_core.variables; simpl. split; [done|]. split.
  - by apply range_elements_length.
  - intros i Hi. by apply range_elements_lookup.
Qed.

(** *** The endpoints *)

(** C3: a constraint constructed from a non-empty range, or from a non-empty
    list, has the input identifiers in the input order as its [variables()],
    and [variables()] returns that same sequence after any further calls. *)
Theorem variables_are_the_input_in_order w k buf first last l :
  first < last → last ≤ length buf → l ≠ [] →
  (∃ p w', exec w (fuse_core.New_range k buf first last) = Some (fuse_core.VPtr p, w')
     ∧ ∀ cs vs w'', run w' cs = Some (vs, w'') →
         exec w'' (fuse_core.Call_variables p)
         = Some (fuse_core.VUuids (range_elements buf first last), w''))
  ∧ (∃ p w', exec w (fuse_core.New_list k l) = Some (fuse_core.VPtr p, w')
     ∧ ∀ cs vs w'', run w' cs = Some (vs, w'') →
         exec w'' (fuse_core.Call_variables p) = Some (fuse_core.VUuids l, w'')).
Proof.
  intros Hfl Hlen Hl. split.
  - destruct (exec_New_range w k buf first last (Nat.lt_le_incl _ _ Hfl) Hlen)
      as (p & w' & He & _ & _ & Ho).
    exists p, w'. split; [done|]. intros cs vs w'' Hrun.
    simpl. by rewrite (run_frame cs _ _ _ _ _ Ho Hrun).
  - destruct l as [|x l]; [done|]. simpl.
    destruct (generate (fuse_core.rng w)) as [u s'] eqn:Hg.
    edestruct construct_new as (p & -> & Hfresh).
    eexists _, _. split; [done|]. intros cs vs w'' Hrun.
    eapply run_frame in Hrun; [|simpl; apply lookup_insert_eq].
    simpl. by rewrite Hrun.
Qed.

(** *** The identifier *)

(** C5: the constructor draws the identifier from the random generator, once;
    [uuid()] returns that draw, also after any further calls.  No call other
    than a construction draws from the generator, and no call changes the
    identifier of any existing constraint. *)
Theorem uuid_generated_once_at_construction w k buf first last :
  first ≤ last → last ≤ length buf →
  ∃ p w', exec w (fuse_core.New_range k buf first last) = Some (fuse_core.VPtr p, w')
    ∧ fuse_core.rng w' = (generate (fuse_core.rng w)).2
    ∧ (∀ cs vs w'', run w' cs = Some (vs, w'') →
         exec w'' (fuse_core.Call_uuid p)
         = Some (fuse_core.VUuid (generate (fuse_core.rng w)).1, w''))
    ∧ (∀ w1 c v w2, exec w1 c = Some (v, w2) → fuse_core.is_new c = false →
         fuse_core.rng w2 = fuse_core.rng w1)
    ∧ (∀ w1 q o cs vs w2, fuse_core.objs w1 !! q = Some o → run w1 cs = Some (vs, w2) →
         exec w2 (fuse_core.Call_uuid q) = Some (fuse_core.VUuid (fuse_core.uuid o), w2)).
Proof.
  intros Hfl Hlen.
  assert (Hframe : ∀ w1 q o cs vs w2,
            fuse_core.objs w1 !! q = Some o → run w1 cs = Some (vs, w2) →
            exec w2 (fuse_core.Call_uuid q)
            = Some (fuse_core.VUuid (fuse_core.uuid o), w2)).
  { intros w1 q o cs vs w2 Hq Hrun. simpl.
    by rewrite (run_frame cs _ _ _ _ _ Hq Hrun). }
  destruct (exec_New_range w k buf first last Hfl Hlen) as (p & w' & He & _ & Hrng & Ho).
  exists p, w'. split; [done|]. split; [done|]. split; [|split; [|done]].
  - intros cs vs w'' Hrun. by apply (Hframe _ _ _ _ _ _ Ho Hrun).
  - intros w1 c v w2 Hc Hnew. apply exec_rng in Hc. by rewrite Hnew in Hc.
Qed.

(** C4: two constraints of one kind constructed one after the other from the
    same endpoints are two objects with the same endpoints; each identifier is
    the draw of the generator at its construction, whatever the endpoints are,
    so the identifiers differ whenever the two draws do. *)
Theorem independent_constructions_have_distinct_uuids w k buf first last :
  first ≤ last → last ≤ length buf →
  (generate (fuse_core.rng w)).1 ≠ (generate (generate (fuse_core.rng w)).2).1 →
  ∃ p1 w1 p2 w2 o1 o2,
    exec w (fuse_core.New_range k buf first last) = Some (fuse_core.VPtr p1, w1)
    ∧ exec w1 (fuse_core.New_range k buf first last) = Some (fuse_core.VPtr p2, w2)
    ∧ p1 ≠ p2
    ∧ fuse_core.objs w2 !! p1 = Some o1 ∧ fuse_core.objs w2 !! p2 = Some o2
    ∧ fuse_core.kind o1 = fuse_core.kind o2
    ∧ fuse_core.variables o1 = fuse_core.variables o2
    ∧ fuse_core.uuid o1 = (generate (fuse_core.rng w)).1
    ∧ fuse_core.uuid o2 = (generate (fuse_core.rng w1)).1
    ∧ fuse_core.uuid o1 ≠ fuse_core.uuid o2.
Proof.
  intros Hfl Hlen Hdraws.
  destruct (exec_New_range w k buf first last Hfl Hlen)
    as (p1 & w1 & He1 & _ & Hrng1 & Ho1).
  destruct (exec_New_range w1 k buf first last Hfl Hlen)
    as (p2 & w2 & He2 & Hfresh2 & _ & Ho2).
  eexists p1, w1, p2, w2, _, _.
  split; [done|]. split; [done|].
  split; [intros ->; rewrite Ho1 in Hfresh2; discriminate|].
  split; [by eapply exec_frame|]. split; [done|].
  unfold fuse_core.uuid, fuse_core.variables; simpl.
  rewrite Hrng1. done.
Qed.

(** *** The virtual member functions *)


(** C8: for a constraint of a kind that does not override [lossFunction()],
    the call returns the null pointer; the implementation of the base class
    returns it for every identifier and every list of endpoints. *)
Theorem default_lossFunction_is_null w p o :
  fuse_core.objs w !! p = Some o →
  fuse_core.lossFunction_override (fuse_core.kind o) = None →
  exec w (fuse_core.Call_lossFunction p) = Some (fuse_core.VLoss None, w)
  ∧ ∀ u l, fuse_core.Constraint_lossFunction
             {| fuse_core.uuid_ := u; fuse_core.variables_ := l |}
           = (None : option LossFunction).
Proof.
  intros Hp Hk. split; [|done].
  simpl. rewrite Hp. simpl. unfold fuse_core.lossFunction. by rewrite Hk.
Qed.

(** *** Copies *)

(** The clone of a constraint is another object with the same kind,
    identifier and endpoints; the original is unchanged. *)
Lemma Constraint_clone_copy (h : gmap loc Object) p o :
  h !! p = Some o →
  ∃ q h', fuse_core.clone h p = Some (q, h')
    ∧ q ≠ p ∧ h' !! q = Some o ∧ h' !! p = Some o.
Proof.
  intros Hp. unfold fuse_core.clone. rewrite Hp. simpl.
  destruct (alloc h o) as [q h'] eqn:Ha. exists q, h'. split; [done|].
  pose proof (alloc_ne h o p o Hp) as Hne.
  pose proof (alloc_new h o) as Hnew.
  pose proof (alloc_old h o p o Hp) as Hold.
  rewrite Ha in *. done.
Qed.

End Constraint_properties.

(** *** The constraint theorems on concrete programs *)

Section Constraint_examples.
Import fuse_core.
Local Open Scope N_scope.

Local Abbreviation exec := (fuse_core.exec counter_generate plain_demangle).
Local Abbreviation run := (fuse_core.run counter_generate plain_demangle).

(** Constructing from the empty range of an empty container succeeds, and the
    instance has no endpoints. *)
Lemma empty_range_is_not_rejected :
  ∃ w', exec world0 (New_range (plain_kind "ExampleConstraint") [] 0 0)
        = Some (VPtr 1, w')
        ∧ variables <$> objs w' !! 1%positive = Some [].
Proof. eexists. split; [reflexivity|]. vm_compute. reflexivity. Qed.

Lemma range_constructor_accepts_every_range_witness :
  (1 ≤ 3)%nat ∧ (3 ≤ length [5; 5; 9])%nat ∧
  ∃ p w' o,
    exec world0 (New_range (plain_kind "ExampleConstraint") [5; 5; 9] 1 3)
    = Some (VPtr p, w')
    ∧ objs w' !! p = Some o
    ∧ kind o = plain_kind "ExampleConstraint"
    ∧ (variables o = [] ↔ 1%nat = 3%nat).
Proof.
  split; [lia|]. split; [simpl; lia|].
  apply (range_constructor_accepts_every_range counter_generate plain_demangle world0
           (plain_kind "ExampleConstraint") [5; 5; 9] 1 3); simpl; lia.
Defined.

Lemma range_constructor_copies_verbatim_witness :
  (0 ≤ 3)%nat ∧ (3 ≤ length [7; 7; 3])%nat ∧
  ∃ p w' o,
    exec world0 (New_range (plain_kind "ExampleConstraint") [7; 7; 3] 0 3)
    = Some (VPtr p, w')
    ∧ objs w' !! p = Some o
    ∧ variables o = range_elements [7; 7; 3] 0 3
    ∧ length (variables o) = (3 - 0)%nat
    ∧ ∀ i, (i < 3 - 0)%nat → variables o !! i = [7; 7; 3] !! (0 + i)%nat.
Proof.
  split; [lia|]. split; [simpl; lia|].
  apply (range_constructor_copies_verbatim counter_generate plain_demangle world0
           (plain_kind "ExampleConstraint") [7; 7; 3] 0 3); simpl; lia.
Defined.

(** Duplicates in the range stay duplicates. *)
Example range_constructor_keeps_duplicates :
  exec world0 (New_range (plain_kind "ExampleConstraint") [7; 7; 3] 0 3)
  = Some (VPtr 1, world1).
Proof. vm_compute. reflexivity. Qed.

Lemma variables_are_the_input_in_order_witness :
  (0 < 3)%nat ∧ (3 ≤ length [7; 7; 3])%nat ∧ [7; 3] ≠ [] ∧
  (∃ p w', exec world0 (New_range (plain_kind "ExampleConstraint") [7; 7; 3] 0 3)
           = Some (VPtr p, w')
     ∧ ∀ cs vs w'', run w' cs = Some (vs, w'') →
         exec w'' (Call_variables p)
         = Some (VUuids (range_elements [7; 7; 3] 0 3), w''))
  ∧ (∃ p w', exec world0 (New_list (plain_kind "ExampleConstraint") [7; 3])
             = Some (VPtr p, w')
     ∧ ∀ cs vs w'', run w' cs = Some (vs, w'') →
         exec w'' (Call_variables p) = Some (VUuids [7; 3], w'')).
Proof.
  split; [lia|]. split; [simpl; lia|]. split; [discriminate|].
  apply (variables_are_the_input_in_order counter_generate plain_demangle world0
           (plain_kind "ExampleConstraint") [7; 7; 3] 0 3 [7; 3]);
    [lia | simpl; lia | discriminate].
Defined.

Lemma uuid_generated_once_at_construction_witness :
  (0 ≤ 3)%nat ∧ (3 ≤ length [7; 7; 3])%nat ∧
  ∃ p w', exec world0 (New_range (plain_kind "ExampleConstraint") [7; 7; 3] 0 3)
          = Some (VPtr p, w')
    ∧ rng w' = (counter_generate (rng world0)).2
    ∧ (∀ cs vs w'', run w' cs = Some (vs, w'') →
         exec w'' (Call_uuid p) = Some (VUuid (counter_generate (rng world0)).1, w'')).
Proof.
  split; [lia|]. split; [simpl; lia|].
  destruct (uuid_generated_once_at_construction counter_generate plain_demangle world0
              (plain_kind "ExampleConstraint") [7; 7; 3] 0 3)
    as (p & w' & He & Hrng & Huuid & _); [lia | simpl; lia |].
  exists p, w'. split; [exact He|]. split; [exact Hrng | exact Huuid].
Defined.

(** The identifier is the first draw of the generator, and stays. *)
Example uuid_is_the_draw :
  ∃ w', run world0 [New_range (plain_kind "ExampleConstraint") [7; 7; 3] 0 3;
                    Call_uuid 1; Call_variables 1; Call_clone 1; Call_uuid 1; Call_uuid 2]
        = Some ([VPtr 1; VUuid 0; VUuids [7; 7; 3]; VPtr 2; VUuid 0; VUuid 0], w').
Proof. eexists. vm_compute. reflexivity. Qed.

Lemma independent_constructions_have_distinct_uuids_witness :
  (counter_generate (rng world0)).1 ≠ (counter_generate (counter_generate (rng world0)).2).1
  ∧ ∃ p1 w1 p2 w2 o1 o2,
    exec world0 (New_range (plain_kind "ExampleConstraint") [7; 7; 3] 0 3)
    = Some (VPtr p1, w1)
    ∧ exec w1 (New_range (plain_kind "ExampleConstraint") [7; 7; 3] 0 3)
      = Some (VPtr p2, w2)
    ∧ p1 ≠ p2
    ∧ objs w2 !! p1 = Some o1 ∧ objs w2 !! p2 = Some o2
    ∧ kind o1 = kind o2
    ∧ variables o1 = variables o2
    ∧ uuid o1 = (counter_generate (rng world0)).1
    ∧ uuid o2 = (counter_generate (rng w1)).1
    ∧ uuid o1 ≠ uuid o2.
Proof.
  split; [discriminate|].
  apply (independent_constructions_have_distinct_uuids counter_generate plain_demangle
           world0 (plain_kind "ExampleConstraint") [7; 7; 3] 0 3);
    [lia | simpl; lia | discriminate].
Defined.



(** An instance of the robust kind is built by the second construction. *)
Example world2_is_built :
  ∃ vs, run world0 [New_range (plain_kind "ExampleConstraint") [7; 7; 3] 0 3;
                    New_range (robust_kind "RobustConstraint") [9; 7; 3] 1 3]
        = Some (vs, world2).
Proof. eexists. vm_compute. reflexivity. Qed.

Lemma default_lossFunction_is_null_witness :
  objs world1 !! 1%positive = Some example_constraint
  ∧ lossFunction_override (kind example_constraint) = None
  ∧ exec world1 (Call_lossFunction 1) = Some (VLoss None, world1).
Proof.
  split; [reflexivity|]. split; [reflexivity|].
  apply (default_lossFunction_is_null counter_generate plain_demangle
           world1 1%positive example_constraint); reflexivity.
Defined.

(** A kind that overrides [lossFunction()] returns its own loss object. *)
Example overriding_kind_has_a_loss :
  ∃ w', run world0 [New_range (robust_kind "RobustConstraint") [7; 3] 0 2;
                    Call_lossFunction 1]
        = Some ([VPtr 1; VLoss (Some ())], w').
Proof. eexists. vm_compute. reflexivity. Qed.

End Constraint_examples.

(** ** Variables *)

Section Variable_properties.
Import fuse_variables.
Context {UUID Time : Type}.
Context (generate : string → Time → UUID → UUID).

Local Abbreviation Var := (@AccelerationAngular2DStamped UUID Time).
Local Abbreviation new := (fuse_variables.new generate).
Local Abbreviation exec := (fuse_variables.exec generate).
Local Abbreviation run := (fuse_variables.run generate).

Implicit Types (h : gmap loc Var) (o : Var) (p q : loc) (r : ref) (x y : double)
  (c : @Call UUID Time) (cs : list (@Call UUID Time)) (u : UUID).

(** *** References *)

Lemma load_Some h r x :
  load h r = Some x ↔ ∃ o, h !! ref_object r = Some o ∧ data_ o !!! ref_index r = x.
Proof.
  unfold load. destruct (h !! ref_object r) as [o|]; simpl.
  - split; [intros [= <-]; by exists o | by intros (? & [= <-] & <-)].
  - split; [done | by intros (? & ? & _)].
Qed.

Lemma uuid_Some h p u :
  uuid h p = Some u ↔ ∃ o, h !! p = Some o ∧ uuid_ o = u.
Proof.
  unfold uuid. destruct (h !! p) as [o|]; simpl.
  - split; [intros [= <-]; by exists o | by intros (? & [= <-] & <-)].
  - split; [done | by intros (? & ? & _)].
Qed.

(** A write through a reference into a live object succeeds. *)
Lemma store_live h r x o :
  h !! ref_object r = Some o →
  store h r x
  = Some (<[ref_object r := set_data_ o (vinsert (ref_index r) x (data_ o))]> h).
Proof. intros Ho. unfold store. by rewrite Ho. Qed.

Lemma store_Some h r x h' :
  store h r x = Some h' →
  ∃ o, h !! ref_object r = Some o
       ∧ h' = <[ref_object r := set_data_ o (vinsert (ref_index r) x (data_ o))]> h.
Proof.
  unfold store. destruct (h !! ref_object r) as [o|]; simpl; [|done].
  intros [= <-]. by exists o.
Qed.

(** The cell written holds the value written. *)
Lemma load_store h r x h' : store h r x = Some h' → load h' r = Some x.
Proof.
  intros (o & _ & ->)%store_Some. apply load_Some. eexists. split.
  - apply lookup_insert_eq.
  - simpl. apply vlookup_insert.
Qed.

(** The cells of the other objects hold what they held. *)
Lemma load_store_other h r x h' r' :
  store h r x = Some h' → ref_object r' ≠ ref_object r → load h' r' = load h r'.
Proof.
  intros (o & _ & ->)%store_Some Hne. unfold load. by rewrite lookup_insert_ne.
Qed.

(** No write changes an identifier. *)
Lemma uuid_store h r x h' p : store h r x = Some h' → uuid h' p = uuid h p.
Proof.
  intros (o & Ho & ->)%store_Some. unfold uuid.
  destruct (decide (ref_object r = p)) as [<-|Hne].
  - by rewrite lookup_insert_eq, Ho.
  - by rewrite lookup_insert_ne.
Qed.

(** *** Construction and copy *)

Lemma new_spec h stamp device_id :
  ∃ p, new h stamp device_id
       = (p, <[p := {| data_ := [# S754_zero false];
                       stamp_ := stamp;
                       device_id_ := device_id;
                       uuid_ := generate type_discriminator stamp device_id |}]> h)
    ∧ h !! p = None.
Proof. apply alloc_spec. Qed.

Lemma clone_spec h p o :
  h !! p = Some o →
  ∃ q, clone h p = Some (q, <[q := o]> h) ∧ h !! q = None.
Proof.
  intros Hp. unfold clone. rewrite Hp. simpl.
  destruct (alloc_spec h o) as (q & -> & Hq). by exists q.
Qed.

Lemma lookup_insert_fresh h p q o o' :
  h !! p = Some o → h !! q = None → <[q := o']> h !! p = Some o.
Proof. intros Hp Hq. rewrite lookup_insert_ne; [done|]. intros ->. congruence. Qed.

(** *** What calls leave alone *)

Lemma exec_uuid h c v h' p u :
  uuid h p = Some u → exec h c = Some (v, h') → uuid h' p = Some u.
Proof.
  intros Hu. pose proof Hu as (o & Ho & _)%uuid_Some.
  destruct c; unfold fuse_variables.exec.
  - destruct (new_spec h stamp device_id) as (q & -> & Hq). intros [= _ <-].
    rewrite <- Hu. unfold uuid. by rewrite (lookup_insert_fresh _ _ _ _ _ Ho Hq), Ho.
  - destruct (h !! this) as [o'|] eqn:Ho'; [|unfold clone; by rewrite Ho'].
    destruct (clone_spec h this o' Ho') as (q & -> & Hq). simpl. intros [= _ <-].
    rewrite <- Hu. unfold uuid. by rewrite (lookup_insert_fresh _ _ _ _ _ Ho Hq), Ho.
  - destruct (uuid h this); simpl; [|done]. by intros [= _ <-].
  - destruct (load h (yaw this)); simpl; [|done]. by intros [= _ <-].
  - destruct (store h (yaw this) x) as [h1|] eqn:Hs; simpl; [|done]. intros [= _ <-].
    by rewrite (uuid_store _ _ _ _ p Hs).
Qed.

Lemma run_uuid cs : ∀ h vs h' p u,
  uuid h p = Some u → run h cs = Some (vs, h') → uuid h' p = Some u.
Proof.
  induction cs as [|c cs IH]; intros h vs h' p u Hu; simpl.
  - by intros [= _ <-].
  - destruct (exec h c) as [[v h1]|] eqn:Hc; simpl; [|done].
    destruct (run h1 cs) as [[vs1 h2]|] eqn:Hcs; simpl; [|done].
    intros [= _ <-]. eapply IH; [|done]. by eapply exec_uuid.
Qed.

(** Only a write through [yaw()] of an object changes its scalar. *)
Lemma exec_load h c v h' p x :
  load h (yaw p) = Some x → (∀ y, c ≠ Write_yaw p y) →
  exec h c = Some (v, h') → load h' (yaw p) = Some x.
Proof.
  intros Hx Hc. pose proof Hx as (o & Ho & Hd)%load_Some. simpl in Ho.
  destruct c; unfold fuse_variables.exec.
  - destruct (new_spec h stamp device_id) as (q & -> & Hq). intros [= _ <-].
    apply load_Some. exists o. split; [|done]. simpl. by eapply lookup_insert_fresh.
  - destruct (h !! this) as [o'|] eqn:Ho'; [|unfold clone; by rewrite Ho'].
    destruct (clone_spec h this o' Ho') as (q & -> & Hq). simpl. intros [= _ <-].
    apply load_Some. exists o. split; [|done]. simpl. by eapply lookup_insert_fresh.
  - destruct (uuid h this); simpl; [|done]. by intros [= _ <-].
  - destruct (load h (yaw this)); simpl; [|done]. by intros [= _ <-].
  - destruct (store h (yaw this) x0) as [h1|] eqn:Hs; simpl; [|done]. intros [= _ <-].
    rewrite (load_store_other _ _ _ _ (yaw p) Hs); [done|].
    simpl. intros ->. by apply (Hc x0).
Qed.

Lemma run_load cs : ∀ h vs h' p x,
  load h (yaw p) = Some x → Forall (λ c, ∀ y, c ≠ Write_yaw p y) cs →
  run h cs = Some (vs, h') → load h' (yaw p) = Some x.
Proof.
  induction cs as [|c cs IH]; intros h vs h' p x Hx Hcs; simpl.
  - by intros [= _ <-].
  - apply Forall_cons in Hcs as [Hc Hcs].
    destruct (exec h c) as [[v h1]|] eqn:He; simpl; [|done].
    destruct (run h1 cs) as [[vs1 h2]|] eqn:Hr; simpl; [|done].
    intros [= _ <-]. eapply IH; [|done|done]. by eapply exec_load.
Qed.

(** *** Identity and storage *)

(** Two objects, each with a scalar of its own: a write through [yaw()] of
    the one is read back there and leaves the scalar of the other as it was. *)
Lemma write_is_local h p q o x :
  h !! p = Some o → q ≠ p →
  ∃ h', store h (yaw p) x = Some h'
    ∧ load h' (yaw p) = Some x
    ∧ load h' (yaw q) = load h (yaw q)
    ∧ uuid h' p = Some (uuid_ o).
Proof.
  intros Hp Hne. pose proof (store_live h (yaw p) x o Hp) as Hs.
  eexists. split; [exact Hs|]. split; [by eapply load_store|].
  split; [by eapply (load_store_other _ _ _ _ (yaw q)) |].
  rewrite (uuid_store _ _ _ _ p Hs). apply uuid_Some. by exists o.
Qed.

(** C2: two variables constructed with the same timestamp and device are two
    objects with the same identifier, each with its own scalar, which starts
    at zero: a write through [yaw()] of one is read back there and leaves the
    other as it was, and no sequence of calls without a write through [yaw()]
    of an object changes its scalar. *)
Theorem same_inputs_same_uuid_independent_storage h stamp device_id p1 h1 p2 h2 :
  new h stamp device_id = (p1, h1) →
  new h1 stamp device_id = (p2, h2) →
  p1 ≠ p2
  ∧ uuid h2 p1 = Some (generate type_discriminator stamp device_id)
  ∧ uuid h2 p2 = uuid h2 p1
  ∧ load h2 (yaw p1) = Some (S754_zero false)
  ∧ load h2 (yaw p2) = Some (S754_zero false)
  ∧ (∀ x, ∃ h3, store h2 (yaw p1) x = Some h3
        ∧ load h3 (yaw p1) = Some x ∧ load h3 (yaw p2) = load h2 (yaw p2))
  ∧ (∀ x, ∃ h3, store h2 (yaw p2) x = Some h3
        ∧ load h3 (yaw p2) = Some x ∧ load h3 (yaw p1) = load h2 (yaw p1))
  ∧ (∀ cs vs h3, Forall (λ c, ∀ y, c ≠ Write_yaw p2 y) cs →
        run h2 cs = Some (vs, h3) → load h3 (yaw p2) = load h2 (yaw p2))
  ∧ (∀ cs vs h3, Forall (λ c, ∀ y, c ≠ Write_yaw p1 y) cs →
        run h2 cs = Some (vs, h3) → load h3 (yaw p1) = load h2 (yaw p1)).
Proof.
  intros Hn1 Hn2.
  destruct (new_spec h stamp device_id) as (q1 & Hq1 & Hf1).
  rewrite Hn1 in Hq1. injection Hq1 as -> ->.
  set (o := {| data_ := [# S754_zero false]; stamp_ := stamp; device_id_ := device_id;
               uuid_ := generate type_discriminator stamp device_id |}) in *.
  destruct (new_spec (<[q1 := o]> h) stamp device_id) as (q2 & Hq2 & Hf2).
  rewrite Hn2 in Hq2. injection Hq2 as -> ->. fold o in Hf2 |- *.
  assert (Hne : q1 ≠ q2) by (intros ->; by rewrite lookup_insert_eq in Hf2).
  assert (H1 : <[q2 := o]> (<[q1 := o]> h) !! q1 = Some o)
    by (by rewrite lookup_insert_ne, lookup_insert_eq).
  assert (H2 : <[q2 := o]> (<[q1 := o]> h) !! q2 = Some o)
    by apply lookup_insert_eq.
  assert (Hl1 : load (<[q2 := o]> (<[q1 := o]> h)) (yaw q1) = Some (S754_zero false))
    by (apply load_Some; by exists o).
  assert (Hl2 : load (<[q2 := o]> (<[q1 := o]> h)) (yaw q2) = Some (S754_zero false))
    by (apply load_Some; by exists o).
  split; [done|]. split; [apply uuid_Some; by exists o|].
  split; [unfold uuid; by rewrite H1, H2|].
  split; [done|]. split; [done|]. split; [|split; [|split]].
  - intros x. destruct (write_is_local _ q1 q2 o x H1) as (h3 & ? & ? & ? & _); [done|].
    by exists h3.
  - intros x. destruct (write_is_local _ q2 q1 o x H2) as (h3 & ? & ? & ? & _); [done|].
    by exists h3.
  - intros cs vs h3 Hcs Hrun. rewrite Hl2. by eapply run_load.
  - intros cs vs h3 Hcs Hrun. rewrite Hl1. by eapply run_load.
Qed.

(** C7: the identifier of a constructed variable is the deterministic one of
    its kind, timestamp and device.  On any instance, [uuid()] returns the
    same identifier after a write through [yaw()], and after any sequence of
    calls. *)
Theorem uuid_is_independent_of_scalars h stamp device_id p h1 :
  new h stamp device_id = (p, h1) →
  uuid h1 p = Some (generate type_discriminator stamp device_id)
  ∧ (∀ cs vs h2, run h1 cs = Some (vs, h2) →
       uuid h2 p = Some (generate type_discriminator stamp device_id))
  ∧ (∀ h' q o x, h' !! q = Some o →
       ∃ h'', store h' (yaw q) x = Some h'' ∧ load h'' (yaw q) = Some x
              ∧ uuid h'' q = uuid h' q)
  ∧ (∀ h' q cs vs h'', is_Some (h' !! q) → run h' cs = Some (vs, h'') →
       uuid h'' q = uuid h' q).
Proof.
  intros Hn.
  destruct (new_spec h stamp device_id) as (q1 & Hq1 & Hf1).
  rewrite Hn in Hq1. injection Hq1 as -> ->.
  assert (Hu : uuid (<[q1 := {| data_ := [# S754_zero false]; stamp_ := stamp;
                                device_id_ := device_id;
                                uuid_ := generate type_discriminator stamp device_id |}]> h) q1
               = Some (generate type_discriminator stamp device_id)).
  { apply uuid_Some. eexists. split; [apply lookup_insert_eq|done]. }
  split; [done|]. split; [|split].
  - intros cs vs h2 Hrun. by eapply run_uuid.
  - intros h' q o x Hq. pose proof (store_live h' (yaw q) x o Hq) as Hs.
    eexists. split; [exact Hs|]. split; [by eapply load_store|].
    by apply uuid_store with (p := q) in Hs.
  - intros h' q cs vs h'' [o Hq] Hrun.
    assert (Hu' : uuid h' q = Some (uuid_ o)) by (apply uuid_Some; by exists o).
    rewrite Hu'. by eapply run_uuid.
Qed.

(** *** Copies *)

(** The clone of a variable is another object with the same identifier and
    the same scalar; the original is unchanged, and a write through [yaw()]
    of either leaves the scalar of the other as it was. *)
Lemma Variable_clone_copy h p o :
  h !! p = Some o →
  ∃ q h', clone h p = Some (q, h')
    ∧ q ≠ p ∧ h' !! q = Some o ∧ h' !! p = Some o
    ∧ uuid h' q = uuid h p
    ∧ load h' (yaw q) = load h (yaw p)
    ∧ (∀ x, ∃ h'', store h' (yaw q) x = Some h''
          ∧ load h'' (yaw q) = Some x ∧ load h'' (yaw p) = load h (yaw p))
    ∧ (∀ x, ∃ h'', store h' (yaw p) x = Some h''
          ∧ load h'' (yaw p) = Some x ∧ load h'' (yaw q) = load h (yaw p)).
Proof.
  intros Hp. destruct (clone_spec h p o Hp) as (q & Hc & Hq).
  assert (Hne : q ≠ p) by (intros ->; congruence).
  assert (Hq' : <[q := o]> h !! q = Some o) by apply lookup_insert_eq.
  assert (Hp' : <[q := o]> h !! p = Some o) by (by rewrite lookup_insert_ne).
  assert (Hlq : load (<[q := o]> h) (yaw q) = load h (yaw p))
    by (unfold load; simpl; by rewrite Hq', Hp).
  assert (Hlp : load (<[q := o]> h) (yaw p) = load h (yaw p))
    by (unfold load; simpl; by rewrite Hp', Hp).
  exists q, (<[q := o]> h). split; [done|]. split; [done|].
  split; [done|]. split; [done|].
  split; [unfold uuid; by rewrite Hq', Hp|]. split; [done|]. split.
  - intros x. destruct (write_is_local _ q p o x Hq') as (h'' & ? & ? & Hl & _); [done|].
    exists h''. by rewrite Hl.
  - intros x. destruct (write_is_local _ p q o x Hp') as (h'' & ? & ? & Hl & _); [done|].
    exists h''. by rewrite Hl.
Qed.

End Variable_properties.

(** ** Clones of variables and of constraints *)

Section clone_properties.
Context {UUID Time LossFunction : Type}.

(** C9: [clone()] of a variable, and of a constraint, yields another object
    whose identifier, scalar (for a variable) and kind and endpoints (for a
    constraint) are those of the original, which it leaves as it was; a write
    through [yaw()] of the clone leaves the scalar of the original as it was,
    and a write through [yaw()] of the original that of the clone. *)
Theorem clone_is_an_equal_independent_copy
    (hv : gmap loc (@fuse_variables.AccelerationAngular2DStamped UUID Time))
    (hc : gmap loc (@fuse_core.Object UUID LossFunction))
    (pv pc : loc) ov oc :
  hv !! pv = Some ov → hc !! pc = Some oc →
  (∃ q hv', fuse_variables.clone hv pv = Some (q, hv')
     ∧ q ≠ pv ∧ hv' !! pv = Some ov
     ∧ fuse_variables.uuid hv' q = fuse_variables.uuid hv pv
     ∧ fuse_variables.load hv' (fuse_variables.yaw q)
       = fuse_variables.load hv (fuse_variables.yaw pv)
     ∧ (∀ x, ∃ h'', fuse_variables.store hv' (fuse_variables.yaw q) x = Some h''
          ∧ fuse_variables.load h'' (fuse_variables.yaw q) = Some x
          ∧ fuse_variables.load h'' (fuse_variables.yaw pv)
            = fuse_variables.load hv (fuse_variables.yaw pv))
     ∧ (∀ x, ∃ h'', fuse_variables.store hv' (fuse_variables.yaw pv) x = Some h''
          ∧ fuse_variables.load h'' (fuse_variables.yaw pv) = Some x
          ∧ fuse_variables.load h'' (fuse_variables.yaw q)
            = fuse_variables.load hv (fuse_variables.yaw pv)))
  ∧ (∃ q hc', fuse_core.clone hc pc = Some (q, hc')
     ∧ q ≠ pc ∧ hc' !! pc = Some oc
     ∧ fuse_core.uuid <$> hc' !! q = Some (fuse_core.uuid oc)
     ∧ fuse_core.variables <$> hc' !! q = Some (fuse_core.variables oc)
     ∧ fuse_core.kind <$> hc' !! q = Some (fuse_core.kind oc)).
Proof.
  intros Hv Hc. split.
  - destruct (Variable_clone_copy hv pv ov Hv)
      as (q & hv' & ? & ? & ? & ? & ? & ? & ? & ?).
    by exists q, hv'.
  - destruct (Constraint_clone_copy hc pc oc Hc) as (q & hc' & ? & ? & Hq & ?).
    exists q, hc'. by rewrite Hq.
Qed.

End clone_properties.

(** *** The variable theorems on concrete programs *)

Section Variable_examples.
Import fuse_variables.
Local Open Scope N_scope.

Local Abbreviation new := (fuse_variables.new mixing_generate).
Local Abbreviation run := (fuse_variables.run mixing_generate).

(** Two variables at 10.0 s on the zero device: equal identifiers, both
    scalars zero; after writing 3.14 to the first, the second is still zero. *)
Lemma same_inputs_same_uuid_independent_storage_witness :
  new ∅ (10, 0) 0 = (1%positive, heap1)
  ∧ new heap1 (10, 0) 0 = (2%positive, heap2)
  ∧ uuid heap2 2 = uuid heap2 1
  ∧ load heap2 (yaw 1) = Some (S754_zero false)
  ∧ load heap2 (yaw 2) = Some (S754_zero false)
  ∧ ∃ h3, store heap2 (yaw 1) double_3_14 = Some h3
      ∧ load h3 (yaw 1) = Some double_3_14
      ∧ load h3 (yaw 2) = load heap2 (yaw 2).
Proof.
  split; [vm_compute; reflexivity|]. split; [vm_compute; reflexivity|].
  destruct (same_inputs_same_uuid_independent_storage mixing_generate
              ∅ (10, 0) 0 1%positive heap1 2%positive heap2)
    as (_ & _ & Hu & Hz1 & Hz2 & Hw & _); [vm_compute; reflexivity..|].
  split; [exact Hu|]. split; [exact Hz1|]. split; [exact Hz2|].
  exact (Hw double_3_14).
Defined.

Lemma uuid_is_independent_of_scalars_witness :
  new ∅ (10, 0) 0 = (1%positive, heap1)
  ∧ uuid heap1 1 = Some (mixing_generate type_discriminator (10, 0) 0)
  ∧ (∀ cs vs h2, run heap1 cs = Some (vs, h2) →
       uuid h2 1 = Some (mixing_generate type_discriminator (10, 0) 0)).
Proof.
  split; [vm_compute; reflexivity|].
  destruct (uuid_is_independent_of_scalars mixing_generate ∅ (10, 0) 0 1%positive heap1)
    as (Hu & Hrun & _); [vm_compute; reflexivity|].
  split; [exact Hu | exact Hrun].
Defined.

(** Without a device, the variable is the one of the device [NIL]. *)
Example default_device_is_NIL :
  new_default mixing_generate 0 ∅ (10, 0) = (1%positive, heap1).
Proof. vm_compute. reflexivity. Qed.

(** Writing 3.14 through [yaw()] leaves the identifier as it was. *)
Example write_yaw_keeps_uuid :
  ∃ h', run heap1 [Call_uuid 1; Write_yaw 1 double_3_14; Read_yaw 1; Call_uuid 1]
        = Some ([VUuid (uuid_ variable_at_10s); VVoid; VDouble double_3_14;
                 VUuid (uuid_ variable_at_10s)], h').
Proof. eexists. vm_compute. reflexivity. Qed.

Lemma clone_is_an_equal_independent_copy_witness :
  heap1 !! 1%positive = Some variable_at_10s
  ∧ fuse_core.objs world1 !! 1%positive = Some example_constraint
  ∧ (∃ q hv', clone heap1 1 = Some (q, hv')
       ∧ q ≠ 1%positive ∧ hv' !! 1%positive = Some variable_at_10s
       ∧ uuid hv' q = uuid heap1 1
       ∧ load hv' (yaw q) = load heap1 (yaw 1))
  ∧ (∃ q hc', fuse_core.clone (fuse_core.objs world1) 1 = Some (q, hc')
       ∧ q ≠ 1%positive ∧ hc' !! 1%positive = Some example_constraint
       ∧ fuse_core.uuid <$> hc' !! q = Some (fuse_core.uuid example_constraint)
       ∧ fuse_core.variables <$> hc' !! q = Some (fuse_core.variables example_constraint)).
Proof.
  split; [reflexivity|]. split; [reflexivity|].
  destruct (clone_is_an_equal_independent_copy heap1 (fuse_core.objs world1)
              1%positive 1%positive variable_at_10s example_constraint)
    as [(q & hv' & Hc & Hne & Hp & Hu & Hl & _) (q' & hc' & Hc' & Hne' & Hp' & Hu' & Hv' & _)];
    [reflexivity..|].
  split.
  - exists q, hv'. repeat split; assumption.
  - exists q', hc'. repeat split; assumption.
Defined.

(** The clone of the variable is at a new address; writing 3.14 to the clone
    leaves the original at zero. *)
Example clone_then_write :
  ∃ h', run heap1 [Call_clone 1; Write_yaw 2 double_3_14; Read_yaw 1; Read_yaw 2;
                   Call_uuid 1; Call_uuid 2]
        = Some ([VPtr 2; VVoid; VDouble (S754_zero false); VDouble double_3_14;
                 VUuid (uuid_ variable_at_10s); VUuid (uuid_ variable_at_10s)], h').
Proof. eexists. vm_compute. reflexivity. Qed.

End Variable_examples.

(** ** More on the iterator-range constructor *)

Section range_constructor_properties.
Context {UUID RngState LossFunction : Type}.
Context (generate : RngState → UUID * RngState) (demangle : string → string).

Local Abbreviation Kind := (@fuse_core.Kind UUID LossFunction).
Local Abbreviation Object := (@fuse_core.Object UUID LossFunction).
Local Abbreviation World := (@fuse_core.World UUID RngState LossFunction).
Local Abbreviation Call := (@fuse_core.Call UUID LossFunction).
Local Abbreviation Value := (@fuse_core.Value UUID LossFunction).
Local Abbreviation exec := (fuse_core.exec generate demangle).
Local Abbreviation run := (fuse_core.run generate demangle).
Local Abbreviation range_elements := fuse_core.range_elements.

Implicit Types (w : World) (k : Kind) (o : Object) (c : Call) (v : Value)
  (cs : list Call) (vs : list Value) (p : loc)
  (buf l acc : list UUID) (first mid last fuel : nat) (s : RngState).

(** The loop ends only on a range whose two iterators are equal, or whose
    first iterator reaches the last one inside the sequence. *)
Lemma push_range_Some_valid fuel buf first last acc l :
  fuse_core.push_range fuel buf first last acc = Some l →
  first = last ∨ (first < last ∧ last ≤ length buf).
Proof.
  revert first acc. induction fuel as [|fuel IH]; intros first acc; simpl; [done|].
  destruct (decide (first = last)) as [->|Hne]; [by left|].
  destruct (buf !! first) as [x|] eqn:Hx; [|done].
  apply lookup_lt_Some in Hx. intros [<-|[Hlt Hlen]]%IH; right; lia.
Qed.

(** X1: the iterator-range constructor completes exactly when its two
    iterators are equal or delimit a range inside the sequence.  On any other
    pair the loop reaches a position past the end, however many rounds it is
    given. *)
Theorem range_constructor_completes_iff s buf first last :
  (is_Some (fuse_core.Constraint_range generate s buf first last)
   ↔ first = last ∨ (first < last ∧ last ≤ length buf))
  ∧ (¬ (first = last ∨ (first < last ∧ last ≤ length buf)) →
     ∀ fuel acc, fuse_core.push_range fuel buf first last acc = None).
Proof.
  split.
  - unfold fuse_core.Constraint_range. destruct (generate s) as [u s']. split.
    + destruct (fuse_core.push_range _ _ _ _ _) as [l|] eqn:Hl.
      * intros _. by eapply push_range_Some_valid.
      * by intros [? ?].
    + intros [->|[Hlt Hlen]].
      * simpl. by rewrite decide_True.
      * by rewrite push_range_valid by lia.
  - intros Hbad fuel acc.
    destruct (fuse_core.push_range fuel buf first last acc) as [l|] eqn:Hl; [|done].
    by apply push_range_Some_valid in Hl.
Qed.

Lemma range_elements_whole buf : range_elements buf 0 (length buf) = buf.
Proof.
  unfold fuse_core.range_elements. rewrite drop_0, Nat.sub_0_r. by apply take_ge.
Qed.

(** X2: a constraint built from the whole [variables()] sequence of an
    existing constraint, from its begin to its end, has the same endpoints in
    the same order, and an identifier of its own, the next draw of the
    generator; the existing constraint is left as it was. *)
Theorem rebuilt_from_variables_has_same_endpoints w p o k :
  fuse_core.objs w !! p = Some o →
  ∃ q w' o',
    exec w (fuse_core.New_range k (fuse_core.variables o) 0
              (length (fuse_core.variables o)))
    = Some (fuse_core.VPtr q, w')
    ∧ q ≠ p
    ∧ fuse_core.objs w' !! p = Some o
    ∧ fuse_core.objs w' !! q = Some o'
    ∧ fuse_core.variables o' = fuse_core.variables o
    ∧ fuse_core.uuid o' = (generate (fuse_core.rng w)).1.
Proof.
  intros Hp.
  destruct (exec_New_range generate demangle w k (fuse_core.variables o) 0
              (length (fuse_core.variables o)))
    as (q & w' & He & Hfresh & _ & Ho'); [lia|done|].
  eexists q, w', _. split; [done|]. split; [intros ->; congruence|].
  split; [by eapply exec_frame|]. split; [done|].
  unfold fuse_core.variables at 1, fuse_core.uuid. simpl.
  by rewrite range_elements_whole.
Qed.

Lemma range_elements_split buf first mid last :
  first ≤ mid → mid ≤ last →
  range_elements buf first last
  = range_elements buf first mid ++ range_elements buf mid last.
Proof.
  intros Hfm Hml. unfold fuse_core.range_elements.
  replace (last - first) with ((mid - first) + (last - mid)) by lia.
  rewrite <- take_take_drop, drop_drop. do 3 f_equal. lia.
Qed.

(** X3: the endpoints built from a range are those built from its first part
    followed by those built from the rest, wherever the range is cut. *)
Theorem range_constructor_splits s s1 s2 buf first mid last :
  first ≤ mid → mid ≤ last → last ≤ length buf →
  ∃ b b1 b2 s' s1' s2',
    fuse_core.Constraint_range generate s buf first last = Some (b, s')
    ∧ fuse_core.Constraint_range generate s1 buf first mid = Some (b1, s1')
    ∧ fuse_core.Constraint_range generate s2 buf mid last = Some (b2, s2')
    ∧ fuse_core.variables_ b = fuse_core.variables_ b1 ++ fuse_core.variables_ b2.
Proof.
  intros Hfm Hml Hlen.
  rewrite !Constraint_range_valid by lia.
  eexists _, _, _, _, _, _. split; [done|]. split; [done|]. split; [done|].
  simpl. by apply range_elements_split.
Qed.

(** X5: the constructor reads the sequence between its two iterators only:
    over two sequences that agree there, it builds the same constraint. *)
Theorem range_constructor_reads_only_the_range s buf buf' first last :
  first ≤ last → last ≤ length buf → last ≤ length buf' →
  (∀ i, first ≤ i < last → buf !! i = buf' !! i) →
  fuse_core.Constraint_range generate s buf first last
  = fuse_core.Constraint_range generate s buf' first last
  ∧ is_Some (fuse_core.Constraint_range generate s buf first last).
Proof.
  intros Hfl Hlen Hlen' Hagree.
  rewrite !Constraint_range_valid by done. split; [|done].
  do 3 f_equal. apply list_eq. intros i.
  destruct (decide (i < last - first)) as [Hi|Hi].
  - rewrite !range_elements_lookup by done. apply Hagree. lia.
  - rewrite !(proj2 (lookup_ge_None _ _)); [done| |];
      rewrite range_elements_length by done; lia.
Qed.

(** A program that only constructs constraints, each from a valid range:
    the new objects are at addresses that held nothing, no two at the same,
    and their identifiers are the successive draws of the generator. *)
Lemma run_constructions w cs :
  Forall (λ c, ∃ k buf first last,
            c = fuse_core.New_range k buf first last
            ∧ first ≤ last ∧ last ≤ length buf) cs →
  ∃ ps w', run w cs = Some (fuse_core.VPtr <$> ps, w')
    ∧ NoDup ps
    ∧ Forall (λ q, fuse_core.objs w !! q = None) ps
    ∧ (λ q, fuse_core.uuid <$> fuse_core.objs w' !! q) <$> ps
      = Some <$> draws generate (length cs) (fuse_core.rng w).
Proof.
  revert w. induction cs as [|c cs IH]; intros w Hcs.
  - exists [], w. split; [done|]. split; [constructor|]. by split.
  - apply Forall_cons in Hcs as [(k & buf & first & last & -> & Hfl & Hlen) Hcs].
    destruct (exec_New_range generate demangle w k buf first last Hfl Hlen)
      as (p & w1 & He & Hfresh & Hrng & Ho).
    destruct (IH w1 Hcs) as (ps & w' & Hrun & Hnd & Hnew & Hu).
    exists (p :: ps), w'. split; [|split; [|split]].
    + change (run w (fuse_core.New_range k buf first last :: cs))
        with (exec w (fuse_core.New_range k buf first last)
              ≫= λ '(v, w1), run w1 cs ≫= λ '(vs, w2), Some (v :: vs, w2)).
      rewrite He. simpl. by rewrite Hrun.
    + constructor; [|done]. intros Hin.
      rewrite Forall_forall in Hnew. specialize (Hnew p Hin). congruence.
    + constructor; [done|]. eapply Forall_impl; [exact Hnew|].
      intros q Hq. simpl in Hq. destruct (fuse_core.objs w !! q) as [o|] eqn:Hwq; [|done].
      by rewrite (exec_frame generate demangle _ _ _ _ _ _ Hwq He) in Hq.
    + rewrite fmap_cons, Hu, Hrng.
      by rewrite (run_frame generate demangle cs _ _ _ _ _ Ho Hrun).
Qed.

(** X4: in a program that constructs constraints one after the other, each
    from a valid range, the constraints are distinct objects and their
    identifiers are the successive draws of the generator, whatever their
    kinds and endpoints; if these draws are pairwise distinct, so are the
    identifiers of the constraints. *)
Theorem constructions_get_successive_draws w cs :
  Forall (λ c, ∃ k buf first last,
            c = fuse_core.New_range k buf first last
            ∧ first ≤ last ∧ last ≤ length buf) cs →
  ∃ ps w', run w cs = Some (fuse_core.VPtr <$> ps, w')
    ∧ NoDup ps
    ∧ (λ q, fuse_core.uuid <$> fuse_core.objs w' !! q) <$> ps
      = Some <$> draws generate (length cs) (fuse_core.rng w)
    ∧ (NoDup (draws generate (length cs) (fuse_core.rng w)) →
       ∀ i j q q' o o', i ≠ j → ps !! i = Some q → ps !! j = Some q' →
         fuse_core.objs w' !! q = Some o → fuse_core.objs w' !! q' = Some o' →
         fuse_core.uuid o ≠ fuse_core.uuid o').
Proof.
  intros Hcs. destruct (run_constructions w cs Hcs) as (ps & w' & Hrun & Hnd & _ & Hu).
  exists ps, w'. split; [done|]. split; [done|]. split; [done|].
  intros Hdraws i j q q' o o' Hij Hi Hj Hq Hq' Heq.
  assert (Hat : ∀ n r x, ps !! n = Some r → fuse_core.objs w' !! r = Some x →
            draws generate (length cs) (fuse_core.rng w) !! n = Some (fuse_core.uuid x)).
  { intros n r x Hn Hr. apply (f_equal (λ l : list (option UUID), l !! n)) in Hu.
    rewrite !list_lookup_fmap, Hn in Hu. simpl in Hu. rewrite Hr in Hu. simpl in Hu.
    destruct (draws _ _ _ !! n) as [u|]; simpl in Hu; congruence. }
  pose proof (Hat i q o Hi Hq) as Hdi. pose proof (Hat j q' o' Hj Hq') as Hdj.
  rewrite <- Heq in Hdj. by apply Hij, (NoDup_lookup _ i j (fuse_core.uuid o) Hdraws).
Qed.

End range_constructor_properties.

(** ** More on writes through [yaw()] *)

Section yaw_properties.
Import fuse_variables.
Context {UUID Time : Type}.

Local Abbreviation Var := (@AccelerationAngular2DStamped UUID Time).

Implicit Types (h : gmap loc Var) (o : Var) (p q : loc) (x y : double)
  (d : vec double 1).

Lemma set_data_set_data o d d' : set_data_ (set_data_ o d) d' = set_data_ o d'.
Proof. done. Qed.

Lemma set_data_id o : set_data_ o (data_ o) = o.
Proof. by destruct o. Qed.

Lemma vinsert_vinsert (i : fin 1) x y d : vinsert i y (vinsert i x d) = vinsert i y d.
Proof.
  apply vec_eq. intros j. destruct (decide (i = j)) as [<-|Hne].
  - by rewrite !vlookup_insert.
  - by rewrite !vlookup_insert_ne.
Qed.

Lemma store_yaw h p x o :
  h !! p = Some o →
  store h (yaw p) x = Some (<[p := set_data_ o (vinsert YAW x (data_ o))]> h).
Proof. apply (store_live h (yaw p)). Qed.

Lemma load_yaw h p x :
  load h (yaw p) = Some x ↔ ∃ o, h !! p = Some o ∧ data_ o !!! YAW = x.
Proof. apply (load_Some h (yaw p)). Qed.

(** X6: of two writes through [yaw()] of one variable the last one wins, and
    writing the value the variable already holds changes nothing at all. *)
Theorem last_write_through_yaw_wins h p o x y :
  h !! p = Some o →
  ∃ h1 h2, store h (yaw p) x = Some h1
    ∧ store h1 (yaw p) y = Some h2
    ∧ store h (yaw p) y = Some h2
    ∧ (load h (yaw p) = Some x → h1 = h).
Proof.
  intros Hp. rewrite !(store_yaw h p _ o Hp).
  eexists _, _. split; [done|]. split; [|split].
  - by rewrite (store_yaw _ p y _ (lookup_insert_eq _ _ _)).
  - change (data_ (set_data_ o ?d)) with d.
    by rewrite insert_insert_eq, set_data_set_data, vinsert_vinsert.
  - intros (o' & Ho' & <-)%load_yaw.
    assert (o' = o) as -> by congruence.
    rewrite vlookup_insert_self, set_data_id. by apply insert_id.
Qed.

(** X7: writes through [yaw()] of two different variables commute: in either
    order they succeed and lead to the same store, in which each variable
    holds the value written to it. *)
Theorem writes_through_yaw_commute h p q o o' x y :
  p ≠ q → h !! p = Some o → h !! q = Some o' →
  ∃ h1 h2 h', store h (yaw p) x = Some h1
    ∧ store h1 (yaw q) y = Some h'
    ∧ store h (yaw q) y = Some h2
    ∧ store h2 (yaw p) x = Some h'
    ∧ load h' (yaw p) = Some x
    ∧ load h' (yaw q) = Some y.
Proof.
  intros Hne Hp Hq.
  rewrite (store_yaw h p x o Hp), (store_yaw h q y o' Hq).
  eexists _, _, _. split; [done|]. split.
  { rewrite (store_yaw _ q y o'); [done|]. by rewrite lookup_insert_ne. }
  split; [done|]. split.
  { rewrite (store_yaw _ p x o); [|by rewrite lookup_insert_ne].
    by rewrite insert_insert_ne. }
  split.
  - apply load_yaw. eexists. split.
    + rewrite lookup_insert_ne by done. apply lookup_insert_eq.
    + apply vlookup_insert.
  - apply load_yaw. eexists. split.
    + apply lookup_insert_eq.
    + apply vlookup_insert.
Qed.

End yaw_properties.

(** *** These theorems on concrete programs *)

Section more_examples.
Local Open Scope N_scope.

Lemma range_constructor_completes_iff_witness :
  ¬ (2%nat = 1%nat ∨ ((2 < 1)%nat ∧ (1 ≤ length [7; 7; 3])%nat))
  ∧ fuse_core.push_range 100 [7; 7; 3] 2 1 [] = None
  ∧ ¬ is_Some (fuse_core.Constraint_range counter_generate 0 [7; 7; 3] 2 1).
Proof.
  assert (Hbad : ¬ (2%nat = 1%nat ∨ ((2 < 1)%nat ∧ (1 ≤ length [7; 7; 3])%nat)))
    by (simpl; lia).
  destruct (range_constructor_completes_iff counter_generate 0 [7; 7; 3] 2 1)
    as [Hiff Hnever].
  split; [exact Hbad|]. split; [exact (Hnever Hbad 100%nat [])|].
  intros Hsome. exact (Hbad (proj1 Hiff Hsome)).
Defined.

Lemma rebuilt_from_variables_has_same_endpoints_witness :
  fuse_core.objs world1 !! 1%positive = Some example_constraint
  ∧ ∃ q w' o',
      fuse_core.exec counter_generate plain_demangle world1
        (fuse_core.New_range (robust_kind "RobustConstraint")
           (fuse_core.variables example_constraint) 0
           (length (fuse_core.variables example_constraint)))
      = Some (fuse_core.VPtr q, w')
      ∧ q ≠ 1%positive
      ∧ fuse_core.objs w' !! 1%positive = Some example_constraint
      ∧ fuse_core.objs w' !! q = Some o'
      ∧ fuse_core.variables o' = fuse_core.variables example_constraint
      ∧ fuse_core.uuid o' = (counter_generate (fuse_core.rng world1)).1.
Proof.
  split; [reflexivity|].
  apply (rebuilt_from_variables_has_same_endpoints counter_generate plain_demangle
           world1 1%positive example_constraint (robust_kind "RobustConstraint")).
  reflexivity.
Defined.

Lemma range_constructor_splits_witness :
  (1 ≤ 2)%nat ∧ (2 ≤ 4)%nat ∧ (4 ≤ length [9; 7; 3; 7; 5])%nat
  ∧ ∃ b b1 b2 s' s1' s2',
      fuse_core.Constraint_range counter_generate 0 [9; 7; 3; 7; 5] 1 4 = Some (b, s')
      ∧ fuse_core.Constraint_range counter_generate 1 [9; 7; 3; 7; 5] 1 2 = Some (b1, s1')
      ∧ fuse_core.Constraint_range counter_generate 2 [9; 7; 3; 7; 5] 2 4 = Some (b2, s2')
      ∧ fuse_core.variables_ b = fuse_core.variables_ b1 ++ fuse_core.variables_ b2.
Proof.
  split; [lia|]. split; [lia|]. split; [simpl; lia|].
  apply (range_constructor_splits counter_generate 0 1 2 [9; 7; 3; 7; 5] 1 2 4);
    simpl; lia.
Defined.

Lemma constructions_get_successive_draws_witness :
  let cs := [fuse_core.New_range (plain_kind "ExampleConstraint") [7; 3] 0 2;
             fuse_core.New_range (robust_kind "RobustConstraint") [] 0 0;
             fuse_core.New_range (plain_kind "ExampleConstraint") [7; 3] 0 2] in
  NoDup (draws counter_generate (length cs) (fuse_core.rng world0))
  ∧ ∃ ps w', fuse_core.run counter_generate plain_demangle world0 cs
             = Some (fuse_core.VPtr <$> ps, w')
      ∧ NoDup ps
      ∧ (λ q, fuse_core.uuid <$> fuse_core.objs w' !! q) <$> ps
        = Some <$> draws counter_generate (length cs) (fuse_core.rng world0).
Proof.
  intros cs. split; [apply (bool_decide_unpack _); vm_compute; exact I|].
  destruct (constructions_get_successive_draws counter_generate plain_demangle world0 cs)
    as (ps & w' & Hrun & Hnd & Hu & _).
  { repeat (constructor; [eexists _, _, _, _; split; [reflexivity | simpl; lia] |]).
    constructor. }
  by exists ps, w'.
Defined.

Lemma range_constructor_reads_only_the_range_witness :
  (1 ≤ 3)%nat ∧ (3 ≤ length [9; 7; 3; 9])%nat ∧ (3 ≤ length [1; 7; 3])%nat
  ∧ (∀ i, (1 ≤ i < 3)%nat → [9; 7; 3; 9] !! i = [1; 7; 3] !! i)
  ∧ fuse_core.Constraint_range counter_generate 0 [9; 7; 3; 9] 1 3
    = fuse_core.Constraint_range counter_generate 0 [1; 7; 3] 1 3.
Proof.
  assert (Hagree : ∀ i, (1 ≤ i < 3)%nat → [9; 7; 3; 9] !! i = [1; 7; 3] !! i).
  { intros [|[|[|i]]] Hi; (reflexivity || lia). }
  split; [lia|]. split; [simpl; lia|]. split; [simpl; lia|]. split; [exact Hagree|].
  apply (range_constructor_reads_only_the_range counter_generate 0
           [9; 7; 3; 9] [1; 7; 3] 1 3); [lia | simpl; lia | simpl; lia | exact Hagree].
Defined.

Lemma last_write_through_yaw_wins_witness :
  heap1 !! 1%positive = Some variable_at_10s
  ∧ ∃ h1 h2, fuse_variables.store heap1 (fuse_variables.yaw 1) double_3_14 = Some h1
      ∧ fuse_variables.store h1 (fuse_variables.yaw 1) (S754_zero true) = Some h2
      ∧ fuse_variables.store heap1 (fuse_variables.yaw 1) (S754_zero true) = Some h2
      ∧ (fuse_variables.load heap1 (fuse_variables.yaw 1) = Some double_3_14 → h1 = heap1).
Proof.
  split; [reflexivity|].
  apply (last_write_through_yaw_wins heap1 1%positive variable_at_10s
           double_3_14 (S754_zero true)).
  reflexivity.
Defined.

Lemma writes_through_yaw_commute_witness :
  1%positive ≠ 2%positive
  ∧ heap2 !! 1%positive = Some variable_at_10s
  ∧ heap2 !! 2%positive = Some variable_at_10s
  ∧ ∃ h1 h2 h',
      fuse_variables.store heap2 (fuse_variables.yaw 1) double_3_14 = Some h1
      ∧ fuse_variables.store h1 (fuse_variables.yaw 2) (S754_zero true) = Some h'
      ∧ fuse_variables.store heap2 (fuse_variables.yaw 2) (S754_zero true) = Some h2
      ∧ fuse_variables.store h2 (fuse_variables.yaw 1) double_3_14 = Some h'
      ∧ fuse_variables.load h' (fuse_variables.yaw 1) = Some double_3_14
      ∧ fuse_variables.load h' (fuse_variables.yaw 2) = Some (S754_zero true).
Proof.
  split; [discriminate|]. split; [reflexivity|]. split; [reflexivity|].
  apply (writes_through_yaw_commute heap2 1%positive 2%positive
           variable_at_10s variable_at_10s double_3_14 (S754_zero true));
    [discriminate | reflexivity | reflexivity].
Defined.

End more_examples.
